(** * ctx-csrf: functional options of the CSRF middleware

    A shallow embedding of [options.go] (package [csrf]) and the properties
    of the configuration it assembles, followed by a model of the token
    protocol the configuration serves.  An [Option] of the Go code is a
    closure [func(cs *csrf) error] that writes through the pointer it is given;
    here the record behind that pointer is threaded through as a value, so an
    [Option] maps a [csrf] to the error it returns and the [csrf] it leaves
    behind. *)

From Stdlib Require Import ZArith List Bool Lia.
From stdpp Require Import base strings list gmap.

Import ListNotations.
Local Open Scope Z_scope.
Local Open Scope string_scope.
Local Open Scope list_scope.

(** ** Data of the Go code *)

(** Go's [int].  The options only store the value they are given, no
    arithmetic is done on it, so no wrap-around arises. *)
Definition int : Type := Z.

(** Go's [error]: an interface with the one method [Error() string]; [None]
    is the nil error. *)
Definition error : Type := option string.

Section Configuration.

(** The dynamic values behind the interfaces [goji.Handler] and [store];
    both interfaces are declared outside [options.go]. *)
Context {HandlerValue storeValue : Type}.

(** An interface value: nil ([None]) or a dynamic value. *)
Definition Handler : Type := option HandlerValue.
Definition store : Type := option storeValue.

(** Modelled from the spec: struct [options] is declared outside
    [options.go]; its fields are the nine the spec's Settings record lists,
    which are exactly the fields [options.go] assigns through [cs.opts]. *)
Record options : Type := mkOptions {
  opts_MaxAge : int;
  opts_Domain : string;
  opts_Path : string;
  opts_HttpOnly : bool;
  opts_Secure : bool;
  opts_RequestHeader : string;
  opts_FieldName : string;
  opts_ErrorHandler : Handler;
  opts_CookieName : string
}.

(** Modelled from the spec: struct [csrf] is declared outside [options.go];
    the fields are those [options.go] names: the wrapped handler [h], the
    store [st] and the settings [opts]. *)
Record csrf : Type := mkCsrf {
  csrf_h : Handler;
  csrf_st : store;
  csrf_opts : options
}.

(** The zero values Go gives to a freshly allocated struct. *)
Definition zero_options : options :=
  {| opts_MaxAge := 0; opts_Domain := ""; opts_Path := "";
     opts_HttpOnly := false; opts_Secure := false;
     opts_RequestHeader := ""; opts_FieldName := "";
     opts_ErrorHandler := None; opts_CookieName := "" |}.

Definition zero_csrf : csrf :=
  {| csrf_h := None; csrf_st := None; csrf_opts := zero_options |}.

(** Assignments [cs.opts.F = v], one per field. *)
Definition set_MaxAge (v : int) (o : options) : options :=
  {| opts_MaxAge := v; opts_Domain := opts_Domain o; opts_Path := opts_Path o;
     opts_HttpOnly := opts_HttpOnly o; opts_Secure := opts_Secure o;
     opts_RequestHeader := opts_RequestHeader o;
     opts_FieldName := opts_FieldName o;
     opts_ErrorHandler := opts_ErrorHandler o;
     opts_CookieName := opts_CookieName o |}.

Definition set_Domain (v : string) (o : options) : options :=
  {| opts_MaxAge := opts_MaxAge o; opts_Domain := v; opts_Path := opts_Path o;
     opts_HttpOnly := opts_HttpOnly o; opts_Secure := opts_Secure o;
     opts_RequestHeader := opts_RequestHeader o;
     opts_FieldName := opts_FieldName o;
     opts_ErrorHandler := opts_ErrorHandler o;
     opts_CookieName := opts_CookieName o |}.

Definition set_Path (v : string) (o : options) : options :=
  {| opts_MaxAge := opts_MaxAge o; opts_Domain := opts_Domain o; opts_Path := v;
     opts_HttpOnly := opts_HttpOnly o; opts_Secure := opts_Secure o;
     opts_RequestHeader := opts_RequestHeader o;
     opts_FieldName := opts_FieldName o;
     opts_ErrorHandler := opts_ErrorHandler o;
     opts_CookieName := opts_CookieName o |}.

Definition set_HttpOnly (v : bool) (o : options) : options :=
  {| opts_MaxAge := opts_MaxAge o; opts_Domain := opts_Domain o;
     opts_Path := opts_Path o;
     opts_HttpOnly := v; opts_Secure := opts_Secure o;
     opts_RequestHeader := opts_RequestHeader o;
     opts_FieldName := opts_FieldName o;
     opts_ErrorHandler := opts_ErrorHandler o;
     opts_CookieName := opts_CookieName o |}.

Definition set_Secure (v : bool) (o : options) : options :=
  {| opts_MaxAge := opts_MaxAge o; opts_Domain := opts_Domain o;
     opts_Path := opts_Path o;
     opts_HttpOnly := opts_HttpOnly o; opts_Secure := v;
     opts_RequestHeader := opts_RequestHeader o;
     opts_FieldName := opts_FieldName o;
     opts_ErrorHandler := opts_ErrorHandler o;
     opts_CookieName := opts_CookieName o |}.

Definition set_RequestHeader (v : string) (o : options) : options :=
  {| opts_MaxAge := opts_MaxAge o; opts_Domain := opts_Domain o;
     opts_Path := opts_Path o;
     opts_HttpOnly := opts_HttpOnly o; opts_Secure := opts_Secure o;
     opts_RequestHeader := v;
     opts_FieldName := opts_FieldName o;
     opts_ErrorHandler := opts_ErrorHandler o;
     opts_CookieName := opts_CookieName o |}.

Definition set_FieldName (v : string) (o : options) : options :=
  {| opts_MaxAge := opts_MaxAge o; opts_Domain := opts_Domain o;
     opts_Path := opts_Path o;
     opts_HttpOnly := opts_HttpOnly o; opts_Secure := opts_Secure o;
     opts_RequestHeader := opts_RequestHeader o;
     opts_FieldName := v;
     opts_ErrorHandler := opts_ErrorHandler o;
     opts_CookieName := opts_CookieName o |}.

Definition set_ErrorHandler (v : Handler) (o : options) : options :=
  {| opts_MaxAge := opts_MaxAge o; opts_Domain := opts_Domain o;
     opts_Path := opts_Path o;
     opts_HttpOnly := opts_HttpOnly o; opts_Secure := opts_Secure o;
     opts_RequestHeader := opts_RequestHeader o;
     opts_FieldName := opts_FieldName o;
     opts_ErrorHandler := v;
     opts_CookieName := opts_CookieName o |}.

Definition set_CookieName (v : string) (o : options) : options :=
  {| opts_MaxAge := opts_MaxAge o; opts_Domain := opts_Domain o;
     opts_Path := opts_Path o;
     opts_HttpOnly := opts_HttpOnly o; opts_Secure := opts_Secure o;
     opts_RequestHeader := opts_RequestHeader o;
     opts_FieldName := opts_FieldName o;
     opts_ErrorHandler := opts_ErrorHandler o;
     opts_CookieName := v |}.

(** [cs.opts = o], [cs.st = s] and the literal [&csrf{h: h}]. *)
Definition with_opts (o : options) (cs : csrf) : csrf :=
  {| csrf_h := csrf_h cs; csrf_st := csrf_st cs; csrf_opts := o |}.

Definition with_st (s : store) (cs : csrf) : csrf :=
  {| csrf_h := csrf_h cs; csrf_st := s; csrf_opts := csrf_opts cs |}.

Definition with_h (h : Handler) (cs : csrf) : csrf :=
  {| csrf_h := h; csrf_st := csrf_st cs; csrf_opts := csrf_opts cs |}.

(** ** The option functions of [options.go] *)

(** [type Option func(cs *csrf) error]. *)
Definition Option : Type := csrf -> error * csrf.

Definition MaxAge (age : int) : Option :=
  fun cs => (None, with_opts (set_MaxAge age (csrf_opts cs)) cs).

Definition Domain (domain : string) : Option :=
  fun cs => (None, with_opts (set_Domain domain (csrf_opts cs)) cs).

Definition Path (p : string) : Option :=
  fun cs => (None, with_opts (set_Path p (csrf_opts cs)) cs).

Definition Secure (s : bool) : Option :=
  fun cs => (None, with_opts (set_Secure s (csrf_opts cs)) cs).

Definition HttpOnly (h : bool) : Option :=
  fun cs => (None, with_opts (set_HttpOnly h (csrf_opts cs)) cs).

Definition ErrorHandler (h : Handler) : Option :=
  fun cs => (None, with_opts (set_ErrorHandler h (csrf_opts cs)) cs).

Definition RequestHeader (header : string) : Option :=
  fun cs => (None, with_opts (set_RequestHeader header (csrf_opts cs)) cs).

Definition FieldName (name : string) : Option :=
  fun cs => (None, with_opts (set_FieldName name (csrf_opts cs)) cs).

Definition CookieName (name : string) : Option :=
  fun cs => (None, with_opts (set_CookieName name (csrf_opts cs)) cs).

Definition setStore (s : store) : Option :=
  fun cs => (None, with_st s cs).

(** The loop [for _, option := range opts { option(cs) }]: each option is
    run on the record the previous one left, and the error it returns is
    dropped. *)
Fixpoint applyEach (opts : list Option) (cs : csrf) : csrf :=
  match opts with
  | [] => cs
  | option :: rest => let '(_, cs') := option cs in applyEach rest cs'
  end.

(** The record [parseOptions] hands to the first option: [&csrf{h: h}] with
    [Secure] and [HttpOnly] switched on. *)
Definition initial (h : Handler) : csrf :=
  let cs := with_h h zero_csrf in
  let cs := with_opts (set_Secure true (csrf_opts cs)) cs in
  let cs := with_opts (set_HttpOnly true (csrf_opts cs)) cs in
  cs.

Definition parseOptions (h : Handler) (opts : list Option) : csrf :=
  applyEach opts (initial h).

(** ** Naming fields and calls, to state properties over all nine options *)

(** The nine fields of the settings record. *)
Inductive field : Type :=
  | FMaxAge | FDomain | FPath | FSecure | FHttpOnly
  | FErrorHandler | FRequestHeader | FFieldName | FCookieName.

Definition field_type (f : field) : Type :=
  match f with
  | FMaxAge => int
  | FDomain | FPath | FRequestHeader | FFieldName | FCookieName => string
  | FSecure | FHttpOnly => bool
  | FErrorHandler => Handler
  end.

(** [read f o] is [o.F]. *)
Definition read (f : field) (o : options) : field_type f :=
  match f with
  | FMaxAge => opts_MaxAge o
  | FDomain => opts_Domain o
  | FPath => opts_Path o
  | FSecure => opts_Secure o
  | FHttpOnly => opts_HttpOnly o
  | FErrorHandler => opts_ErrorHandler o
  | FRequestHeader => opts_RequestHeader o
  | FFieldName => opts_FieldName o
  | FCookieName => opts_CookieName o
  end.

(** A call of one of the nine exported option functions with its argument. *)
Inductive OptionCall : Type :=
  | CallMaxAge (age : int)
  | CallDomain (domain : string)
  | CallPath (p : string)
  | CallSecure (s : bool)
  | CallHttpOnly (h : bool)
  | CallErrorHandler (h : Handler)
  | CallRequestHeader (header : string)
  | CallFieldName (name : string)
  | CallCookieName (name : string).

(** The [Option] the call returns. *)
Definition call (c : OptionCall) : Option :=
  match c with
  | CallMaxAge age => MaxAge age
  | CallDomain domain => Domain domain
  | CallPath p => Path p
  | CallSecure s => Secure s
  | CallHttpOnly h => HttpOnly h
  | CallErrorHandler h => ErrorHandler h
  | CallRequestHeader header => RequestHeader header
  | CallFieldName name => FieldName name
  | CallCookieName name => CookieName name
  end.

(** The field the called function is named after, and the argument. *)
Definition target (c : OptionCall) : field :=
  match c with
  | CallMaxAge _ => FMaxAge
  | CallDomain _ => FDomain
  | CallPath _ => FPath
  | CallSecure _ => FSecure
  | CallHttpOnly _ => FHttpOnly
  | CallErrorHandler _ => FErrorHandler
  | CallRequestHeader _ => FRequestHeader
  | CallFieldName _ => FFieldName
  | CallCookieName _ => FCookieName
  end.

Definition argument (c : OptionCall) : field_type (target c) :=
  match c with
  | CallMaxAge age => age
  | CallDomain domain => domain
  | CallPath p => p
  | CallSecure s => s
  | CallHttpOnly h => h
  | CallErrorHandler h => h
  | CallRequestHeader header => header
  | CallFieldName name => name
  | CallCookieName name => name
  end.

(** The record an option leaves behind, and the error it returns. *)
Definition after (o : Option) (cs : csrf) : csrf := snd (o cs).
Definition returned (o : Option) (cs : csrf) : error := fst (o cs).

(** [o] writes [v] to field [f], whatever record it is run on. *)
Definition writes (o : Option) (f : field) (v : field_type f) : Prop :=
  forall cs, read f (csrf_opts (after o cs)) = v.

(** [o] leaves field [f] as it finds it. *)
Definition keeps (o : Option) (f : field) : Prop :=
  forall cs, read f (csrf_opts (after o cs)) = read f (csrf_opts cs).

(** Two options that act alike on every record. *)
Definition same_effect (o1 o2 : Option) : Prop :=
  forall cs, after o1 cs = after o2 cs.

(** An option with its error forced to nil. *)
Definition silenced (o : Option) : Option :=
  fun cs => (None, after o cs).

End Configuration.

(** * The token protocol

    [options.go] holds the configuration only; the masking engine, the token
    store, the request validator and the middleware core live in files of the
    package that are not part of the sources at hand.  They are modelled
    here from the design document, component by component. *)

Local Close Scope Z_scope.

(** Modelled from the spec: the Random Source (section 2), absent from the
    sources.  It supplies byte sequences and may fail; it is the tape of the
    bytes it will supply, and a draw of more bytes than it holds fails. *)
Definition RandomSource : Type := list Byte.byte.

Definition draw (n : nat) (rs : RandomSource)
  : option (list Byte.byte * RandomSource) :=
  if decide (n <= length rs) then Some (take n rs, drop n rs) else None.

(** Modelled from the spec: RawToken and MaskedToken (section 3), absent
    from the sources; byte sequences, a raw token of 32 bytes. *)
Definition RawToken : Type := list Byte.byte.
Definition MaskedToken : Type := list Byte.byte.
Definition rawTokenLength : nat := 32.

Definition bits8 : Type :=
  (bool * (bool * (bool * (bool * (bool * (bool * (bool * bool)))))))%type.

Definition xor_bits (x y : bits8) : bits8 :=
  let '(x0, (x1, (x2, (x3, (x4, (x5, (x6, x7))))))) := x in
  let '(y0, (y1, (y2, (y3, (y4, (y5, (y6, y7))))))) := y in
  (xorb x0 y0, (xorb x1 y1, (xorb x2 y2, (xorb x3 y3,
  (xorb x4 y4, (xorb x5 y5, (xorb x6 y6, xorb x7 y7))))))).

(** XOR of two bytes, bit by bit. *)
Definition xor_byte (a b : Byte.byte) : Byte.byte :=
  Byte.of_bits (xor_bits (Byte.to_bits a) (Byte.to_bits b)).

(** [out[i] = mask[i] XOR data[i]]. *)
Definition xor_bytes (mask data : list Byte.byte) : list Byte.byte :=
  zip_with xor_byte mask data.

(** Modelled from the spec: the Masking Engine's [Mask] (section 4.1),
    absent from the sources.  It draws [len(raw)] mask bytes and returns
    [mask || cipher] with [cipher[i] = mask[i] XOR raw[i]]. *)
Definition Mask (raw : RawToken) (rs : RandomSource)
  : option (MaskedToken * RandomSource) :=
  '(mask, rs') ← draw (length raw) rs;
  Some (mask ++ xor_bytes mask raw, rs').

(** Modelled from the spec: the Masking Engine's [Unmask] (section 4.1),
    absent from the sources.  It fails unless the length is exactly twice the
    raw length, and otherwise XORs the two halves. *)
Definition Unmask (masked : MaskedToken) : option RawToken :=
  if decide (length masked = 2 * rawTokenLength) then
    let mask := take rawTokenLength masked in
    let cipher := drop rawTokenLength masked in
    Some (xor_bytes mask cipher)
  else None.

(** Modelled from the spec: the Token Codec (section 4.2), absent from the
    sources.  The design fixes no alphabet, so the codec is an interface. *)
Record Codec : Type := mkCodec {
  encode : MaskedToken -> string;
  decode : string -> option MaskedToken
}.

(** Modelled from the spec: the request as the core reads it (sections 4.3,
    4.4 and 6): method, headers, form fields and cookies.  The HTTP types
    are absent from the sources. *)
Record Request : Type := mkRequest {
  req_method : string;
  req_header : gmap string string;
  req_form : gmap string string;
  req_cookie : gmap string string
}.

(** Modelled from the spec: the cookie written on a response (section 6). *)
Record Cookie : Type := mkCookie {
  cookie_name : string;
  cookie_value : string;
  cookie_path : string;
  cookie_domain : string;
  cookie_max_age : int;
  cookie_secure : bool;
  cookie_http_only : bool
}.

(** The cookies set on a response, latest first. *)
Definition Response : Type := list Cookie.

(** Modelled from the spec: the rejection reasons (section 7) and the
    verdict of the validator (section 3). *)
Inductive Reason : Type := NoToken | MalformedToken | TokenMismatch.

Inductive Verdict : Type := Accepted | Rejected (reason : Reason).

(** Modelled from the spec: the default safe set (section 4.4). *)
Definition defaultSafeMethods : list string :=
  ["GET"; "HEAD"; "OPTIONS"; "TRACE"].

(** Modelled from the spec: the fixed-iteration comparison of section 4.4:
    every pair of bytes is visited, the differences are accumulated, and a
    difference of lengths counts as a mismatch. *)
Definition byte_differs (a b : Byte.byte) : bool :=
  negb (Byte.eqb a b).

Definition constantTimeEqual (a b : list Byte.byte) : bool :=
  let differs :=
    fold_left (fun acc ab => orb acc (byte_differs (fst ab) (snd ab)))
              (zip a b) false in
  Nat.eqb (length a) (length b) && negb differs.

Section Protocol.

Context {HandlerValue storeValue : Type}.
Implicit Types (settings : @options HandlerValue) (cs : @csrf HandlerValue storeValue).

(** Modelled from the spec: the Token Store's [Load] (section 4.3), absent
    from the sources: the named cookie, decoded and unmasked; an absent or
    undecodable cookie is no token. *)
Definition Load (codec : Codec) settings (r : Request) : option RawToken :=
  match req_cookie r !! opts_CookieName settings with
  | None => None
  | Some value =>
      match decode codec value with
      | None => None
      | Some masked => Unmask masked
      end
  end.

(** Modelled from the spec: the Token Store's [New] (section 4.3), absent
    from the sources: 32 bytes from the Random Source. *)
Definition New (rs : RandomSource) : option (RawToken * RandomSource) :=
  draw rawTokenLength rs.

(** Modelled from the spec: the Token Store's [Save] (section 4.3), absent
    from the sources: mask with a fresh mask, encode, write the cookie with
    the attributes of the settings. *)
Definition Save (codec : Codec) settings (w : Response) (raw : RawToken)
    (rs : RandomSource) : option (Response * RandomSource) :=
  '(masked, rs') ← Mask raw rs;
  Some ({| cookie_name := opts_CookieName settings;
           cookie_value := encode codec masked;
           cookie_path := opts_Path settings;
           cookie_domain := opts_Domain settings;
           cookie_max_age := opts_MaxAge settings;
           cookie_secure := opts_Secure settings;
           cookie_http_only := opts_HttpOnly settings |} :: w, rs').

(** The submitted token: the configured header first, the configured field
    when the header is absent. *)
Definition submitted settings (r : Request) : option string :=
  match req_header r !! opts_RequestHeader settings with
  | Some value => Some value
  | None => req_form r !! opts_FieldName settings
  end.

(** Modelled from the spec: the Request Validator (section 4.4), absent from
    the sources: safe-method exemption, presence check, decode check,
    comparison. *)
Definition validate (safe : list string) (codec : Codec) settings
    (r : Request) (stored : RawToken) : Verdict :=
  if bool_decide (req_method r ∈ safe) then Accepted
  else
    match submitted settings r with
    | None => Rejected NoToken
    | Some value =>
        match decode codec value with
        | None => Rejected MalformedToken
        | Some masked =>
            match Unmask masked with
            | None => Rejected MalformedToken
            | Some raw =>
                if constantTimeEqual raw stored then Accepted
                else Rejected TokenMismatch
            end
        end
    end.

(** What downstream code reads from the request-scoped context. *)
Record Context : Type := mkContext {
  ctx_token : MaskedToken;
  ctx_reason : option Reason
}.

(** The handler the core hands the request to. *)
Inductive Invoked : Type :=
  | Wrapped (h : @Handler HandlerValue)
  | OnError (h : @Handler HandlerValue).

Record Outcome : Type := mkOutcome {
  out_verdict : Verdict;
  out_raw : RawToken;
  out_response : Response;
  out_context : Context;
  out_invoked : Invoked
}.

Definition reason_of (v : Verdict) : option Reason :=
  match v with
  | Accepted => None
  | Rejected reason => Some reason
  end.

(** Modelled from the spec: the Middleware Core (section 4.5), absent from
    the sources: load the token or mint one, validate, always save a freshly
    masked cookie, expose a masked token and the reason, and hand over to the
    wrapped handler or to the error handler.  [None] is the fatal failure of
    the Random Source (section 7): no response is issued. *)
Definition serve (safe : list string) (codec : Codec) cs (r : Request)
    (rs : RandomSource) : option (Outcome * RandomSource) :=
  let settings := csrf_opts cs in
  '(raw, rs1) ← match Load codec settings r with
                | Some raw => Some (raw, rs)
                | None => New rs
                end;
  let verdict := validate safe codec settings r raw in
  '(w, rs2) ← Save codec settings [] raw rs1;
  '(token, rs3) ← Mask raw rs2;
  Some ({| out_verdict := verdict;
           out_raw := raw;
           out_response := w;
           out_context := {| ctx_token := token;
                             ctx_reason := reason_of verdict |};
           out_invoked := match verdict with
                          | Accepted => Wrapped (csrf_h cs)
                          | Rejected _ => OnError (opts_ErrorHandler settings)
                          end |}, rs3).

(** The bytes the core draws from the Random Source for [r]: one mask for
    the cookie and one for the exposed token, after a token of 32 bytes when
    the cookie of the request yields none. *)
Definition bytes_drawn (codec : Codec) settings (r : Request) : nat :=
  match Load codec settings r with
  | Some _ => 2 * rawTokenLength
  | None => 3 * rawTokenLength
  end.

(** The same request with other headers and form fields. *)
Definition resubmit (header form : gmap string string) (r : Request)
  : Request :=
  {| req_method := req_method r; req_header := header; req_form := form;
     req_cookie := req_cookie r |}.

End Protocol.

(** ** Concrete instances

    A hexadecimal codec, handlers and stores known by name, a request that
    carries nothing, and a tape for the Random Source. *)

Definition hex_digits : string := "0123456789abcdef".

Definition hex_of_nibble (n : nat) : Ascii.ascii :=
  default Ascii.zero (String.get n hex_digits).

Definition nibble_of_hex (c : Ascii.ascii) : option nat :=
  String.index 0 (String c EmptyString) hex_digits.

Definition encode_hex (bs : list Byte.byte) : string :=
  fold_right
    (fun b acc =>
       let n := N.to_nat (Byte.to_N b) in
       String (hex_of_nibble (n / 16)) (String (hex_of_nibble (n mod 16)) acc))
    EmptyString bs.

Fixpoint decode_hex (s : string) : option (list Byte.byte) :=
  match s with
  | EmptyString => Some []
  | String c1 (String c2 rest) =>
      hi ← nibble_of_hex c1;
      lo ← nibble_of_hex c2;
      b ← Byte.of_N (N.of_nat (16 * hi + lo));
      bs ← decode_hex rest;
      Some (b :: bs)
  | String _ EmptyString => None
  end.

Definition hexCodec : Codec :=
  {| encode := encode_hex; decode := decode_hex |}.

(** The bytes 0, 1, ..., n-1 (modulo 256). *)
Definition countingTape (n : nat) : RandomSource :=
  map (fun i => default Byte.x00 (Byte.of_N (N.of_nat (i mod 256)))) (seq 0 n).

(** A GET request without headers, form fields or cookies. *)
Definition bareGet : Request :=
  {| req_method := "GET"; req_header := ∅; req_form := ∅; req_cookie := ∅ |}.

(** A GET request that carries, in the cookie named ["csrf"], the hexadecimal
    form of a masked token of 64 bytes, and nothing else. *)
Definition cookieGet : Request :=
  {| req_method := "GET"; req_header := ∅; req_form := ∅;
     req_cookie := {[ "csrf" := encode_hex (countingTape 64) ]} |}.

(** A handler named ["app"], wrapped with the cookie named ["csrf"]. *)
Definition namedApp : @csrf string string :=
  parseOptions (Some "app") [CookieName "csrf"].

(** A handler named ["app"], wrapped with no options. *)
Definition bareApp : @csrf string string :=
  parseOptions (Some "app") [].

(** ** Lists of option calls

    What a list of calls writes, read off the calls themselves: the last value
    written to a field, and the last store set. *)

Section OptionLists.

Context {HandlerValue storeValue : Type}.

(** The value [c] writes to field [f], if [c] is named after [f]. *)
Definition written (f : field) (c : @OptionCall HandlerValue)
  : option (field_type f) :=
  match f return option (field_type f) with
  | FMaxAge => match c with CallMaxAge age => Some age | _ => None end
  | FDomain => match c with CallDomain domain => Some domain | _ => None end
  | FPath => match c with CallPath p => Some p | _ => None end
  | FSecure => match c with CallSecure s => Some s | _ => None end
  | FHttpOnly => match c with CallHttpOnly h => Some h | _ => None end
  | FErrorHandler => match c with CallErrorHandler h => Some h | _ => None end
  | FRequestHeader =>
      match c with CallRequestHeader header => Some header | _ => None end
  | FFieldName => match c with CallFieldName name => Some name | _ => None end
  | FCookieName => match c with CallCookieName name => Some name | _ => None end
  end.

(** The value the last call named after [f] writes, if there is one. *)
Fixpoint last_written (f : field) (calls : list (@OptionCall HandlerValue))
  : option (field_type f) :=
  match calls with
  | [] => None
  | c :: rest =>
      match last_written f rest with
      | Some v => Some v
      | None => written f c
      end
  end.

(** A call of any option function of [options.go]: one of the nine exported
    ones, or the unexported [setStore]. *)
Inductive PackageCall : Type :=
  | Exported (c : @OptionCall HandlerValue)
  | CallSetStore (s : @store storeValue).

Definition package_call (p : PackageCall) : Option :=
  match p with
  | Exported c => call c
  | CallSetStore s => setStore s
  end.

(** The exported calls of a list, in order. *)
Fixpoint exported_of (ps : list PackageCall) : list (@OptionCall HandlerValue) :=
  match ps with
  | [] => []
  | Exported c :: rest => c :: exported_of rest
  | CallSetStore _ :: rest => exported_of rest
  end.

(** The store the last [setStore] of a list sets, if there is one. *)
Fixpoint last_store (ps : list PackageCall) : option (@store storeValue) :=
  match ps with
  | [] => None
  | p :: rest =>
      match last_store rest with
      | Some s => Some s
      | None => match p with
                | CallSetStore s => Some s
                | Exported _ => None
                end
      end
  end.

(** A Go value of type [Option]: the nil function value ([None]) or a
    closure. *)
Definition Option_or_nil : Type := option (@Option HandlerValue storeValue).

(** The loop of [parseOptions] over such values.  The call [option(cs)] of
    a nil function value is a run-time panic, [None] here; the loop has no
    guard against it. *)
Fixpoint applyEach_or_panic (opts : list Option_or_nil)
    (cs : @csrf HandlerValue storeValue) : option csrf :=
  match opts with
  | [] => Some cs
  | None :: _ => None
  | Some option :: rest =>
      let '(_, cs') := option cs in applyEach_or_panic rest cs'
  end.

Definition parseOptions_or_panic (h : Handler) (opts : list Option_or_nil)
  : option csrf :=
  applyEach_or_panic opts (initial h).

(** An option that writes a max-age and reports an error. *)
Definition complaining (age : int) : @Option HandlerValue storeValue :=
  fun cs => (Some "max-age looks odd", after (MaxAge age) cs).

End OptionLists.

(** * Properties of the configuration *)

Section ConfigurationProperties.

Context {HandlerValue storeValue : Type}.
Implicit Types (h : @Handler HandlerValue).
Implicit Types (cs : @csrf HandlerValue storeValue).
Implicit Types (c : @OptionCall HandlerValue).
Implicit Types (opts : list (@Option HandlerValue storeValue)).

Local Abbreviation call := (@call HandlerValue storeValue).
Local Abbreviation parseOptions := (@parseOptions HandlerValue storeValue).
Local Abbreviation Option_or_nil := (@Option_or_nil HandlerValue storeValue).

Local Open Scope Z_scope.

(** *** The loop *)

Lemma applyEach_cons (o : @Option HandlerValue storeValue) opts cs :
  applyEach (o :: opts) cs = applyEach opts (after o cs).
Proof. unfold after. simpl. destruct (o cs) as [e cs']. reflexivity. Qed.

Lemma applyEach_app opts1 opts2 cs :
  applyEach (opts1 ++ opts2) cs = applyEach opts2 (applyEach opts1 cs).
Proof.
  revert cs. induction opts1 as [|o opts1 IH]; intros cs.
  - reflexivity.
  - change ((o :: opts1) ++ opts2) with (o :: (opts1 ++ opts2)).
    rewrite !applyEach_cons. apply IH.
Qed.

Lemma applyEach_keeps (f : field) opts cs :
  Forall (fun o => keeps o f) opts ->
  read f (csrf_opts (applyEach opts cs)) = read f (csrf_opts cs).
Proof.
  intros Hall. revert cs.
  induction Hall as [|o opts Ho _ IH]; intros cs.
  - reflexivity.
  - rewrite applyEach_cons, IH. apply Ho.
Qed.

Lemma applyEach_same_effect opts1 opts2 cs :
  Forall2 same_effect opts1 opts2 -> applyEach opts1 cs = applyEach opts2 cs.
Proof.
  intros Hall. revert cs.
  induction Hall as [|o1 o2 opts1 opts2 Ho _ IH]; intros cs.
  - reflexivity.
  - rewrite !applyEach_cons, Ho. apply IH.
Qed.

(** *** What one exported option does *)

Lemma call_returns_nil c cs : returned (call c) cs = None.
Proof. destruct c; reflexivity. Qed.

Lemma call_writes c : writes (call c) (target c) (argument c).
Proof. intros cs. destruct c; reflexivity. Qed.

Lemma call_keeps c (g : field) : g <> target c -> keeps (call c) g.
Proof. intros Hg cs. destruct c, g; try reflexivity; contradiction. Qed.

Lemma call_keeps_h c cs : csrf_h (after (call c) cs) = csrf_h cs.
Proof. destruct c; reflexivity. Qed.

Lemma call_keeps_st c cs : csrf_st (after (call c) cs) = csrf_st cs.
Proof. destruct c; reflexivity. Qed.

Lemma applyEach_calls_keep_h (calls : list OptionCall) cs :
  csrf_h (applyEach (map call calls) cs) = csrf_h cs.
Proof.
  revert cs. induction calls as [|c calls IH]; intros cs.
  - reflexivity.
  - simpl map. rewrite applyEach_cons, IH. apply call_keeps_h.
Qed.

(** *** The claims *)

(** C1 (as amended): with an empty option list [parseOptions] returns the
    record with the wrapped handler, [Secure] and [HttpOnly] true, and every
    other field at its zero value: max-age 0, empty domain, path, request
    header name, field name and cookie name, no error handler, no store.
    The documented default names and max-age are not assigned here. *)
Theorem parseOptions_no_options h :
  parseOptions h [] =
  {| csrf_h := h;
     csrf_st := None;
     csrf_opts :=
       {| opts_MaxAge := 0; opts_Domain := ""; opts_Path := "";
          opts_HttpOnly := true; opts_Secure := true;
          opts_RequestHeader := ""; opts_FieldName := "";
          opts_ErrorHandler := None; opts_CookieName := "" |} |}.
Proof. reflexivity. Qed.

(** C2 (as amended): options are applied in the order given, and for two
    options of the list that set the same field, the returned configuration
    carries the value written by the later one, provided no option applied
    after it sets that field again. *)
Theorem later_option_overrides h opts (i j : nat) (a b : Option)
    (f : field) (va vb : field_type f) :
  (i < j)%nat ->
  opts !! i = Some a ->
  opts !! j = Some b ->
  writes a f va ->
  writes b f vb ->
  (forall k o, (j < k)%nat -> opts !! k = Some o -> keeps o f) ->
  read f (csrf_opts (parseOptions h opts)) = vb.
Proof.
  intros _ _ Hb _ Hwb Hlater.
  unfold parseOptions.
  rewrite <- (take_drop_middle opts j b Hb).
  rewrite applyEach_app, applyEach_cons.
  rewrite applyEach_keeps.
  - apply Hwb.
  - apply Forall_lookup_2. intros k o Hk.
    rewrite lookup_drop in Hk.
    apply (Hlater (S j + k)%nat o); [lia | exact Hk].
Qed.

(** C3: each of the nine option functions, applied with any argument, sets
    its field of the settings record to exactly that argument: nothing is
    validated, rejected or normalised. *)
Theorem option_sets_its_field cs :
  (forall age, opts_MaxAge (csrf_opts (after (MaxAge age) cs)) = age) /\
  (forall domain, opts_Domain (csrf_opts (after (Domain domain) cs)) = domain) /\
  (forall p, opts_Path (csrf_opts (after (Path p) cs)) = p) /\
  (forall s, opts_Secure (csrf_opts (after (Secure s) cs)) = s) /\
  (forall b, opts_HttpOnly (csrf_opts (after (HttpOnly b) cs)) = b) /\
  (forall eh, opts_ErrorHandler (csrf_opts (after (ErrorHandler eh) cs)) = eh) /\
  (forall header,
     opts_RequestHeader (csrf_opts (after (RequestHeader header) cs)) = header) /\
  (forall name, opts_FieldName (csrf_opts (after (FieldName name) cs)) = name) /\
  (forall name, opts_CookieName (csrf_opts (after (CookieName name) cs)) = name).
Proof. repeat split. Qed.

(** C4: an exported option changes its own field only.  For every call [c],
    every field [g] other than the one [c] is named after, and every call
    [c'] named after another field: the wrapped handler, the store and [g]
    are as before, and [c] and [c'] commute. *)
Theorem option_frame c c' (g : field) cs :
  g <> target c ->
  target c' <> target c ->
  csrf_h (after (call c) cs) = csrf_h cs /\
  csrf_st (after (call c) cs) = csrf_st cs /\
  read g (csrf_opts (after (call c) cs)) = read g (csrf_opts cs) /\
  after (call c') (after (call c) cs) = after (call c) (after (call c') cs).
Proof.
  intros Hg Hc'. split; [apply call_keeps_h|].
  split; [apply call_keeps_st|].
  split; [apply call_keeps; exact Hg|].
  destruct c, c'; try reflexivity; contradiction.
Qed.

(** C8 (as amended): every exported option returns the nil error, whatever
    its argument and the record, and [parseOptions] drops the error each
    option returns: for every list of non-nil options, failing ones
    included, construction succeeds, the result is that of the same options
    with their errors forced to nil, and an option appended to the list acts
    on the record the list built.  A nil option value anywhere in the list
    makes the loop panic. *)
Theorem options_fail_only_on_nil :
  (forall c cs, returned (call c) cs = None) /\
  (forall h opts,
     parseOptions_or_panic h (map Some opts) = Some (parseOptions h opts)) /\
  (forall h opts, parseOptions h opts = parseOptions h (map silenced opts)) /\
  (forall h opts (o : Option),
     parseOptions h (opts ++ [o]) = after o (parseOptions h opts)) /\
  (forall h (values : list Option_or_nil),
     None ∈ values -> parseOptions_or_panic h values = None).
Proof.
  split; [exact call_returns_nil|]. split; [|split; [|split]].
  - intros h opts. unfold parseOptions_or_panic, parseOptions.
    generalize (initial (storeValue := storeValue) h) as cs.
    induction opts as [|o opts IH]; intros cs.
    + reflexivity.
    + simpl. destruct (o cs) as [e cs']. apply IH.
  - intros h opts. unfold parseOptions.
    apply applyEach_same_effect.
    induction opts as [|o opts IH]; constructor; [|exact IH].
    intros cs. reflexivity.
  - intros h opts o. unfold parseOptions.
    rewrite applyEach_app. apply applyEach_cons.
  - intros h values Hnil. unfold parseOptions_or_panic.
    generalize (initial (storeValue := storeValue) h) as cs.
    induction values as [|v values IH]; intros cs.
    + inversion Hnil.
    + destruct v as [o|]; [|reflexivity].
      simpl. destruct (o cs) as [e cs']. apply IH.
      apply elem_of_cons in Hnil as [Heq|Hin]; [discriminate Heq|exact Hin].
Qed.

(** C9: the wrapped handler is preserved.  For every handler and every list
    of exported options the configuration returned holds that handler;
    [ErrorHandler] sets the error handler of the settings and leaves the
    wrapped handler alone. *)
Theorem wrapped_handler_preserved :
  (forall h (calls : list OptionCall),
     csrf_h (parseOptions h (map call calls)) = h) /\
  (forall eh cs,
     csrf_h (after (ErrorHandler eh) cs) = csrf_h cs /\
     opts_ErrorHandler (csrf_opts (after (ErrorHandler eh) cs)) = eh).
Proof.
  split.
  - intros h calls. unfold parseOptions. apply applyEach_calls_keep_h.
  - intros eh cs. split; reflexivity.
Qed.

(** C10: every exported option is idempotent: applied twice in succession
    with the same argument it leaves the configuration it leaves when
    applied once, and returns the same nil error. *)
Theorem option_idempotent c cs :
  after (call c) (after (call c) cs) = after (call c) cs /\
  returned (call c) (after (call c) cs) = returned (call c) cs.
Proof. destruct c; split; reflexivity. Qed.

End ConfigurationProperties.

(** * Properties of option lists and of [setStore] *)

Section OptionListProperties.

Context {HandlerValue storeValue : Type}.
Implicit Types (h : @Handler HandlerValue).
Implicit Types (cs : @csrf HandlerValue storeValue).
Implicit Types (c : @OptionCall HandlerValue).
Implicit Types (calls : list (@OptionCall HandlerValue)).
Implicit Types (ps : list (@PackageCall HandlerValue storeValue)).
Implicit Types (f : field).

Local Abbreviation call := (@call HandlerValue storeValue).
Local Abbreviation parseOptions := (@parseOptions HandlerValue storeValue).
Local Abbreviation setStore := (@setStore HandlerValue storeValue).

(** *** Records are determined by their fields *)

Lemma options_ext (o1 o2 : @options HandlerValue) :
  (forall f, read f o1 = read f o2) -> o1 = o2.
Proof.
  intros Hread. destruct o1, o2.
  pose proof (Hread FMaxAge). pose proof (Hread FDomain).
  pose proof (Hread FPath). pose proof (Hread FSecure).
  pose proof (Hread FHttpOnly). pose proof (Hread FErrorHandler).
  pose proof (Hread FRequestHeader). pose proof (Hread FFieldName).
  pose proof (Hread FCookieName). simpl in *. congruence.
Qed.

Lemma csrf_ext cs1 cs2 :
  csrf_h cs1 = csrf_h cs2 ->
  csrf_st cs1 = csrf_st cs2 ->
  (forall f, read f (csrf_opts cs1) = read f (csrf_opts cs2)) ->
  cs1 = cs2.
Proof.
  intros Hh Hst Hread. apply options_ext in Hread.
  destruct cs1, cs2. simpl in *. congruence.
Qed.

(** *** What a call writes *)

Lemma written_target c : written (target c) c = Some (argument c).
Proof. destruct c; reflexivity. Qed.

Lemma written_Some_target f c (v : field_type f) :
  written f c = Some v -> target c = f.
Proof. destruct f, c; simpl; intros Hw; try discriminate Hw; reflexivity. Qed.

Lemma call_read f c cs :
  read f (csrf_opts (after (call c) cs))
  = default (read f (csrf_opts cs)) (written f c).
Proof. destruct f, c; reflexivity. Qed.

Lemma applyEach_calls_read f calls cs :
  read f (csrf_opts (applyEach (map call calls) cs))
  = default (read f (csrf_opts cs)) (last_written f calls).
Proof.
  revert cs. induction calls as [|c calls IH]; intros cs.
  - reflexivity.
  - simpl map. rewrite applyEach_cons, IH. simpl.
    destruct (last_written f calls); [reflexivity|].
    simpl. apply call_read.
Qed.

Lemma applyEach_calls_keep_st calls cs :
  csrf_st (applyEach (map call calls) cs) = csrf_st cs.
Proof.
  revert cs. induction calls as [|c calls IH]; intros cs.
  - reflexivity.
  - simpl map. rewrite applyEach_cons, IH. apply call_keeps_st.
Qed.

Lemma applyEach_calls_eq calls1 calls2 cs :
  (forall f, last_written f calls1 = last_written f calls2) ->
  applyEach (map call calls1) cs = applyEach (map call calls2) cs.
Proof.
  intros Hlast. apply csrf_ext.
  - rewrite !applyEach_calls_keep_h. reflexivity.
  - rewrite !applyEach_calls_keep_st. reflexivity.
  - intros f. rewrite !applyEach_calls_read, Hlast. reflexivity.
Qed.

Lemma applyEach_calls_opts calls cs1 cs2 :
  csrf_opts cs1 = csrf_opts cs2 ->
  csrf_opts (applyEach (map call calls) cs1)
  = csrf_opts (applyEach (map call calls) cs2).
Proof.
  intros Hopts. apply options_ext. intros f.
  rewrite !applyEach_calls_read, Hopts. reflexivity.
Qed.

Lemma last_written_app f calls1 calls2 :
  last_written f (calls1 ++ calls2)
  = match last_written f calls2 with
    | Some v => Some v
    | None => last_written f calls1
    end.
Proof.
  induction calls1 as [|c calls1 IH]; simpl.
  - destruct (last_written f calls2); reflexivity.
  - rewrite IH. destruct (last_written f calls2); reflexivity.
Qed.

Lemma last_written_None f calls :
  last_written f calls = None -> Forall (fun c => written f c = None) calls.
Proof.
  induction calls as [|c calls IH]; simpl; intros Hlast.
  - constructor.
  - destruct (last_written f calls); [discriminate Hlast|].
    constructor; [exact Hlast | apply IH; reflexivity].
Qed.

Lemma last_written_untouched f calls :
  Forall (fun c => target c <> f) calls -> last_written f calls = None.
Proof.
  induction 1 as [|c calls Hc _ IH]; simpl.
  - reflexivity.
  - rewrite IH. destruct (written f c) eqn:Hw; [|reflexivity].
    apply written_Some_target in Hw. contradiction.
Qed.

Lemma last_written_perm f calls calls' :
  Permutation calls calls' ->
  NoDup (map target calls) ->
  last_written f calls = last_written f calls'.
Proof.
  induction 1 as [|c l l' _ IH|c1 c2 l|l1 l2 l3 H12 IH12 _ IH23]; intros Hnd.
  - reflexivity.
  - simpl. rewrite IH; [reflexivity|].
    simpl in Hnd. apply NoDup_cons in Hnd. apply Hnd.
  - simpl. destruct (last_written f l); [reflexivity|].
    destruct (written f c1) eqn:H1, (written f c2) eqn:H2; try reflexivity.
    apply written_Some_target in H1, H2.
    simpl in Hnd. apply NoDup_cons in Hnd as [Hnotin _].
    exfalso. apply Hnotin. rewrite H2, <- H1. constructor.
  - rewrite IH12 by exact Hnd. apply IH23.
    assert (Hmap : map target l1 ≡ₚ map target l2)
      by apply Permutation_map, H12.
    rewrite <- Hmap. exact Hnd.
Qed.

(** *** [setStore] *)

(** [setStore] returns the nil error, sets the store to its argument,
    and leaves the wrapped handler and every setting as they were. *)
Lemma setStore_sets_store (s : @store storeValue) cs :
  returned (setStore s) cs = None /\
  csrf_st (after (setStore s) cs) = s /\
  csrf_h (after (setStore s) cs) = csrf_h cs /\
  csrf_opts (after (setStore s) cs) = csrf_opts cs.
Proof. repeat split. Qed.

(** X1: [setStore] commutes with each of the nine exported options, and of
    two [setStore] in a row the second decides the store. *)
Theorem setStore_commutes (s s' : @store storeValue) c cs :
  after (call c) (after (setStore s) cs)
    = after (setStore s) (after (call c) cs) /\
  after (setStore s') (after (setStore s) cs) = after (setStore s') cs.
Proof. destruct c; split; reflexivity. Qed.

(** *** [parseOptions] on lists of exported options *)

(** X2: no list of exported options sets the store: the configuration
    [parseOptions] returns for it has a nil store. *)
Theorem exported_options_leave_store_nil h calls :
  csrf_st (parseOptions h (map call calls)) = None.
Proof. unfold parseOptions. rewrite applyEach_calls_keep_st. reflexivity. Qed.

(** X3: last writer wins.  In the configuration [parseOptions] returns for
    a list of exported options, every field holds the argument of the last
    option of the list named after it, and the value it has with no options
    at all when no option of the list is named after it. *)
Theorem parseOptions_last_written h calls f :
  read f (csrf_opts (parseOptions h (map call calls)))
  = match last_written f calls with
    | Some v => v
    | None => read f (csrf_opts (parseOptions h []))
    end.
Proof.
  unfold parseOptions. rewrite applyEach_calls_read.
  destruct (last_written f calls); reflexivity.
Qed.

(** X4: the two defaults survive: when no option of the list is [Secure] or
    [HttpOnly], both flags are true in the configuration returned, whatever
    the other options are. *)
Theorem secure_defaults_survive h calls :
  Forall (fun c => target c <> FSecure /\ target c <> FHttpOnly) calls ->
  opts_Secure (csrf_opts (parseOptions h (map call calls))) = true /\
  opts_HttpOnly (csrf_opts (parseOptions h (map call calls))) = true.
Proof.
  intros Hall. split.
  - change (read FSecure (csrf_opts (parseOptions h (map call calls))) = true).
    unfold parseOptions.
    rewrite applyEach_calls_read, last_written_untouched; [reflexivity|].
    eapply Forall_impl; [exact Hall|]. intros c [Hc _]. exact Hc.
  - change (read FHttpOnly (csrf_opts (parseOptions h (map call calls))) = true).
    unfold parseOptions.
    rewrite applyEach_calls_read, last_written_untouched; [reflexivity|].
    eapply Forall_impl; [exact Hall|]. intros c [_ Hc]. exact Hc.
Qed.

(** X5: the order of options that are named after pairwise different fields
    does not matter: every reordering of such a list gives the same
    configuration. *)
Theorem parseOptions_permutation h calls calls' :
  NoDup (map target calls) ->
  Permutation calls calls' ->
  parseOptions h (map call calls) = parseOptions h (map call calls').
Proof.
  intros Hnd Hperm. unfold parseOptions.
  apply applyEach_calls_eq. intros f.
  apply last_written_perm; assumption.
Qed.

(** X6: an exported option that is followed, anywhere later in the list, by
    an option named after the same field has no effect on the configuration
    returned: the list without it gives the same result. *)
Theorem overridden_option_is_dead h calls1 calls2 calls3 c c' :
  target c = target c' ->
  parseOptions h (map call (calls1 ++ c :: calls2 ++ c' :: calls3))
  = parseOptions h (map call (calls1 ++ calls2 ++ c' :: calls3)).
Proof.
  intros Htarget. unfold parseOptions.
  apply applyEach_calls_eq. intros f.
  remember (c' :: calls3) as tail eqn:Htail.
  rewrite (last_written_app f calls1 (c :: calls2 ++ tail)).
  change (last_written f (c :: calls2 ++ tail))
    with (match last_written f (calls2 ++ tail) with
          | Some v => Some v
          | None => written f c
          end).
  rewrite !last_written_app.
  destruct (last_written f tail) as [v|] eqn:Hlast; [reflexivity|].
  destruct (last_written f calls2); [reflexivity|].
  destruct (written f c) as [v|] eqn:Hw; [|reflexivity].
  apply written_Some_target in Hw.
  apply last_written_None in Hlast. subst tail.
  apply Forall_cons in Hlast as [Hc' _].
  rewrite <- Hw, Htarget, written_target in Hc'. discriminate Hc'.
Qed.

(** X7: a list of exported options is idempotent as a whole: running it
    again on the record it produced changes nothing, so a list repeated
    twice configures like the list itself. *)
Theorem option_list_idempotent h calls cs :
  applyEach (map call calls) (applyEach (map call calls) cs)
    = applyEach (map call calls) cs /\
  parseOptions h (map call (calls ++ calls)) = parseOptions h (map call calls).
Proof.
  assert (Hlast : forall f,
             last_written f (calls ++ calls) = last_written f calls).
  { intros f. rewrite last_written_app.
    destruct (last_written f calls); reflexivity. }
  split.
  - rewrite <- applyEach_app, <- map_app.
    apply applyEach_calls_eq, Hlast.
  - unfold parseOptions. apply applyEach_calls_eq, Hlast.
Qed.

(** X8: the wrapped handler is only carried along: the settings and the
    store built from a list of exported options are the same for every
    handler, and the configuration for handler [h] is the one for the nil
    handler with [h] put in. *)
Theorem handler_only_carried h calls :
  parseOptions h (map call calls) = with_h h (parseOptions None (map call calls)).
Proof.
  unfold parseOptions. apply csrf_ext.
  - rewrite applyEach_calls_keep_h. reflexivity.
  - simpl. rewrite !applyEach_calls_keep_st. reflexivity.
  - intros f. simpl. rewrite !applyEach_calls_read. reflexivity.
Qed.

(** X9: for a list of calls of any of the ten option functions of the
    file, [setStore] included, the configuration returned holds the wrapped
    handler, the store set by the last [setStore] of the list (nil when
    there is none), and the settings the exported options of the list build
    on their own. *)
Theorem parseOptions_package_calls h ps :
  csrf_h (parseOptions h (map package_call ps)) = h /\
  csrf_st (parseOptions h (map package_call ps))
    = default None (last_store ps) /\
  csrf_opts (parseOptions h (map package_call ps))
    = csrf_opts (parseOptions h (map call (exported_of ps))).
Proof.
  unfold parseOptions.
  change h with (csrf_h (initial (storeValue := storeValue) h)) at 2.
  change (@None storeValue) with (csrf_st (initial (storeValue := storeValue) h)).
  generalize (initial (storeValue := storeValue) h) as cs.
  induction ps as [|p ps IH]; intros cs.
  - repeat split.
  - simpl map. rewrite applyEach_cons.
    destruct (IH (after (package_call p) cs)) as (IHh & IHst & IHopts).
    rewrite IHh, IHst, IHopts. clear IH IHh IHst IHopts.
    destruct p as [c|s].
    + change (exported_of (Exported c :: ps)) with (c :: exported_of ps).
      simpl map. rewrite applyEach_cons.
      split; [apply call_keeps_h|]. split; [|reflexivity].
      simpl. destruct (last_store ps); [reflexivity|]. apply call_keeps_st.
    + change (exported_of (CallSetStore s :: ps)) with (exported_of ps).
      split; [reflexivity|]. split.
      * simpl. destruct (last_store ps); reflexivity.
      * apply applyEach_calls_opts. reflexivity.
Qed.

(** X10: an exported option whose argument is the value its field already
    holds changes nothing. *)
Theorem rewriting_same_value_changes_nothing c cs :
  read (target c) (csrf_opts cs) = argument c ->
  after (call c) cs = cs.
Proof.
  intros Hsame. apply csrf_ext.
  - apply call_keeps_h.
  - apply call_keeps_st.
  - intros f. rewrite call_read.
    destruct (written f c) as [v|] eqn:Hw; [|reflexivity].
    pose proof (written_Some_target f c v Hw) as <-.
    rewrite written_target in Hw. injection Hw as <-.
    simpl. symmetry. exact Hsame.
Qed.

End OptionListProperties.

(** * Properties of the token protocol *)

(** *** Bytes and the Random Source *)

Lemma xorb_cancel (a b : bool) : xorb a (xorb a b) = b.
Proof. destruct a, b; reflexivity. Qed.

Lemma xor_bits_cancel (x y : bits8) : xor_bits x (xor_bits x y) = y.
Proof.
  destruct x as (x0 & x1 & x2 & x3 & x4 & x5 & x6 & x7).
  destruct y as (y0 & y1 & y2 & y3 & y4 & y5 & y6 & y7).
  unfold xor_bits. rewrite !xorb_cancel. reflexivity.
Qed.

Lemma xor_byte_cancel (m r : Byte.byte) : xor_byte m (xor_byte m r) = r.
Proof.
  unfold xor_byte.
  rewrite Byte.to_bits_of_bits, xor_bits_cancel.
  apply Byte.of_bits_to_bits.
Qed.

Lemma xor_bytes_length (mask data : list Byte.byte) :
  length mask = length data -> length (xor_bytes mask data) = length data.
Proof.
  intros Hlen. unfold xor_bytes. rewrite length_zip_with. lia.
Qed.

Lemma xor_bytes_cancel (mask raw : list Byte.byte) :
  length mask = length raw -> xor_bytes mask (xor_bytes mask raw) = raw.
Proof.
  revert raw. induction mask as [|m mask IH]; intros [|r raw] Hlen;
    try discriminate.
  - reflexivity.
  - unfold xor_bytes in *. simpl.
    rewrite xor_byte_cancel. f_equal. apply IH.
    simpl in Hlen. lia.
Qed.

Lemma draw_enough (n : nat) (rs : RandomSource) :
  n <= length rs -> draw n rs = Some (take n rs, drop n rs).
Proof. intros Hn. unfold draw. rewrite decide_True by exact Hn. reflexivity. Qed.

Lemma draw_Some (n : nat) (rs rs' : RandomSource) (bs : list Byte.byte) :
  draw n rs = Some (bs, rs') ->
  length bs = n /\ rs = bs ++ rs'.
Proof.
  unfold draw. intros Hdraw.
  destruct (decide (n <= length rs)) as [Hn|]; [|discriminate].
  injection Hdraw as <- <-. split.
  - rewrite length_take. lia.
  - symmetry. apply take_drop.
Qed.

(** *** The Masking Engine *)

Lemma Unmask_masked (mask raw : list Byte.byte) :
  length mask = rawTokenLength ->
  length raw = rawTokenLength ->
  Unmask (mask ++ xor_bytes mask raw) = Some raw.
Proof.
  intros Hmask Hraw. unfold Unmask.
  assert (Hxor : length (xor_bytes mask raw) = rawTokenLength)
    by (rewrite xor_bytes_length; congruence).
  rewrite decide_True by (rewrite length_app; lia).
  rewrite <- Hmask at 1 2.
  rewrite take_app_length, drop_app_length.
  rewrite xor_bytes_cancel by congruence. reflexivity.
Qed.

Lemma Unmask_length (masked : MaskedToken) (raw : RawToken) :
  Unmask masked = Some raw -> length raw = rawTokenLength.
Proof.
  unfold Unmask.
  destruct (decide (length masked = 2 * rawTokenLength)) as [Hlen|];
    [|discriminate].
  intros [= <-]. unfold xor_bytes.
  rewrite length_zip_with, length_take, length_drop. lia.
Qed.

Lemma Mask_enough (raw : RawToken) (rs : RandomSource) :
  length raw <= length rs ->
  Mask raw rs =
  Some (take (length raw) rs ++ xor_bytes (take (length raw) rs) raw,
        drop (length raw) rs).
Proof. intros Hn. unfold Mask. rewrite draw_enough by exact Hn. reflexivity. Qed.

(** C5: masking then unmasking is the identity.  For every raw token of the
    fixed length and every mask [Mask] draws from the Random Source, [Mask]
    returns the mask followed by the masked bytes, and [Unmask] of that
    returns the raw token itself, with success. *)
Theorem Unmask_Mask (raw : RawToken) (rs rs' : RandomSource)
    (mask : list Byte.byte) :
  length raw = rawTokenLength ->
  draw (length raw) rs = Some (mask, rs') ->
  Mask raw rs = Some (mask ++ xor_bytes mask raw, rs') /\
  Unmask (mask ++ xor_bytes mask raw) = Some raw.
Proof.
  intros Hraw Hdraw. split.
  - unfold Mask. rewrite Hdraw. reflexivity.
  - apply draw_Some in Hdraw as [Hmask _].
    apply Unmask_masked; congruence.
Qed.

Section ProtocolProperties.

Context {HandlerValue storeValue : Type}.
Implicit Types (settings : @options HandlerValue).
Implicit Types (cs : @csrf HandlerValue storeValue).

(** *** The Request Validator and the Middleware Core *)

Lemma validate_safe (safe : list string) (codec : Codec) settings
    (r : Request) (stored : RawToken) :
  req_method r ∈ safe -> validate safe codec settings r stored = Accepted.
Proof.
  intros Hsafe. unfold validate.
  rewrite bool_decide_eq_true_2 by exact Hsafe. reflexivity.
Qed.

Lemma Save_enough (codec : Codec) settings (w : Response) (raw : RawToken)
    (rs : RandomSource) :
  length raw <= length rs ->
  Save codec settings w raw rs =
  Some ({| cookie_name := opts_CookieName settings;
           cookie_value :=
             encode codec
               (take (length raw) rs ++ xor_bytes (take (length raw) rs) raw);
           cookie_path := opts_Path settings;
           cookie_domain := opts_Domain settings;
           cookie_max_age := opts_MaxAge settings;
           cookie_secure := opts_Secure settings;
           cookie_http_only := opts_HttpOnly settings |} :: w,
        drop (length raw) rs).
Proof. intros Hn. unfold Save. rewrite Mask_enough by exact Hn. reflexivity. Qed.

Lemma draw_short (n : nat) (rs : RandomSource) :
  length rs < n -> draw n rs = None.
Proof. intros Hn. unfold draw. rewrite decide_False by lia. reflexivity. Qed.

Lemma Mask_short (raw : RawToken) (rs : RandomSource) :
  length rs < length raw -> Mask raw rs = None.
Proof. intros Hn. unfold Mask. rewrite draw_short by exact Hn. reflexivity. Qed.

Lemma Save_short (codec : Codec) settings (w : Response) (raw : RawToken)
    (rs : RandomSource) :
  length rs < length raw -> Save codec settings w raw rs = None.
Proof. intros Hn. unfold Save. rewrite Mask_short by exact Hn. reflexivity. Qed.

Lemma Load_length (codec : Codec) settings (r : Request) (raw : RawToken) :
  Load codec settings r = Some raw -> length raw = rawTokenLength.
Proof.
  unfold Load. intros Hload.
  destruct (req_cookie r !! opts_CookieName settings) as [value|];
    [|discriminate].
  destruct (decode codec value); [|discriminate].
  eapply Unmask_length, Hload.
Qed.

(** The core once the token in effect is known: save, expose, hand over. *)
Lemma serve_from_token (safe : list string) (codec : Codec) cs (r : Request)
    (raw : RawToken) (rs rs1 : RandomSource) :
  match Load codec (csrf_opts cs) r with
  | Some raw => Some (raw, rs)
  | None => New rs
  end = Some (raw, rs1) ->
  req_method r ∈ safe ->
  length raw = rawTokenLength ->
  (2 * rawTokenLength <= length rs1 ->
   exists out masked,
     serve safe codec cs r rs
       = Some (out, drop rawTokenLength (drop rawTokenLength rs1)) /\
     out_verdict out = Accepted /\
     out_invoked out = Wrapped (csrf_h cs) /\
     out_response out =
       [ {| cookie_name := opts_CookieName (csrf_opts cs);
            cookie_value := encode codec masked;
            cookie_path := opts_Path (csrf_opts cs);
            cookie_domain := opts_Domain (csrf_opts cs);
            cookie_max_age := opts_MaxAge (csrf_opts cs);
            cookie_secure := opts_Secure (csrf_opts cs);
            cookie_http_only := opts_HttpOnly (csrf_opts cs) |} ] /\
     Unmask masked = Some (out_raw out)) /\
  (length rs1 < 2 * rawTokenLength -> serve safe codec cs r rs = None).
Proof.
  intros Htoken Hsafe Hlen. unfold rawTokenLength in *.
  unfold serve. rewrite Htoken. simpl.
  rewrite validate_safe by exact Hsafe. split.
  - intros Hrs1.
    rewrite Save_enough by lia. simpl.
    rewrite Mask_enough by (rewrite length_drop; lia). simpl.
    rewrite Hlen.
    eexists _, _. split; [reflexivity|]. simpl.
    split; [reflexivity|]. split; [reflexivity|]. split; [reflexivity|].
    apply Unmask_masked; [|exact Hlen].
    rewrite length_take. unfold rawTokenLength. lia.
  - intros Hrs1.
    destruct (decide (length raw <= length rs1)) as [Hfirst|Hfirst].
    + rewrite Save_enough by exact Hfirst. simpl.
      rewrite Mask_short by (rewrite length_drop; lia). reflexivity.
    + rewrite Save_short by lia. reflexivity.
Qed.

(** C6 (as amended): for every request whose method is in the configured
    safe set, (1) the validator reaches Accepted whatever token is stored
    and whatever is, or is not, submitted, and the outcome of the core is the
    same for all headers and form fields; (2) when the Random Source holds
    the bytes the core draws for the request (64 when the cookie of the
    request yields a token, 96 when a token has to be minted first), the
    wrapped handler is invoked and the response receives one cookie, with
    the attributes of the settings and a masked form of the token in effect,
    also when the request carries no token and no cookie, and exactly those
    bytes are consumed; (3) when the Random Source holds fewer bytes the
    request is aborted: no handler is invoked and no cookie is set. *)
Theorem safe_method_bypass (safe : list string) (codec : Codec) cs
    (r : Request) (rs : RandomSource) :
  req_method r ∈ safe ->
  (forall stored, validate safe codec (csrf_opts cs) r stored = Accepted) /\
  (forall header form,
     serve safe codec cs (resubmit header form r) rs = serve safe codec cs r rs) /\
  (bytes_drawn codec (csrf_opts cs) r <= length rs ->
   exists out rs' masked,
     serve safe codec cs r rs = Some (out, rs') /\
     out_verdict out = Accepted /\
     out_invoked out = Wrapped (csrf_h cs) /\
     out_response out =
       [ {| cookie_name := opts_CookieName (csrf_opts cs);
            cookie_value := encode codec masked;
            cookie_path := opts_Path (csrf_opts cs);
            cookie_domain := opts_Domain (csrf_opts cs);
            cookie_max_age := opts_MaxAge (csrf_opts cs);
            cookie_secure := opts_Secure (csrf_opts cs);
            cookie_http_only := opts_HttpOnly (csrf_opts cs) |} ] /\
     Unmask masked = Some (out_raw out) /\
     length rs' + bytes_drawn codec (csrf_opts cs) r = length rs) /\
  (length rs < bytes_drawn codec (csrf_opts cs) r ->
   serve safe codec cs r rs = None).
Proof.
  intros Hsafe. split; [|split].
  - intros stored. apply validate_safe, Hsafe.
  - intros header form. unfold serve.
    change (Load codec (csrf_opts cs) (resubmit header form r))
      with (Load codec (csrf_opts cs) r).
    destruct (match Load codec (csrf_opts cs) r with
              | Some raw => Some (raw, rs)
              | None => New rs
              end) as [[raw rs1]|]; [|reflexivity].
    simpl. rewrite !validate_safe by exact Hsafe. reflexivity.
  - unfold bytes_drawn.
    destruct (Load codec (csrf_opts cs) r) as [raw|] eqn:Hload.
    + (* the cookie yields the token: two masks are drawn *)
      pose proof (Load_length _ _ _ _ Hload) as Hlen.
      destruct (serve_from_token safe codec cs r raw rs rs)
        as [Hserved Haborted];
        [rewrite Hload; reflexivity | exact Hsafe | exact Hlen |].
      split; [|exact Haborted].
      intros Hrs. destruct (Hserved Hrs) as (out & masked & Hout & Hrest).
      exists out, (drop rawTokenLength (drop rawTokenLength rs)), masked.
      split; [exact Hout|].
      destruct Hrest as (Hv & Hi & Hr & Hm).
      repeat (split; [assumption|]).
      rewrite !length_drop. unfold rawTokenLength in *. lia.
    + (* no token: one is minted first *)
      destruct (decide (rawTokenLength <= length rs)) as [Hmint|Hmint].
      * assert (Hlen : length (take rawTokenLength rs) = rawTokenLength)
          by (rewrite length_take; lia).
        destruct (serve_from_token safe codec cs r
                    (take rawTokenLength rs) rs (drop rawTokenLength rs))
          as [Hserved Haborted];
          [rewrite Hload; apply draw_enough, Hmint | exact Hsafe
          | exact Hlen |].
        rewrite length_drop in Hserved, Haborted. split.
        -- intros Hrs.
           destruct Hserved as (out & masked & Hout & Hv & Hi & Hr & Hm);
             [unfold rawTokenLength in *; lia|].
           eexists out, _, masked. split; [exact Hout|].
           repeat (split; [assumption|]).
           rewrite !length_drop. unfold rawTokenLength in *. lia.
        -- intros Hrs. apply Haborted. unfold rawTokenLength in *. lia.
      * split; [unfold rawTokenLength in *; lia|].
        intros _. unfold serve. rewrite Hload. unfold New.
        rewrite draw_short by lia. reflexivity.
Qed.

End ProtocolProperties.

(** * The theorems at concrete inputs *)

(** C1, as stated, fails: with no options the record has [Secure] and
    [HttpOnly] true, but its max-age is 0, not 43200, and its request header
    name is empty, not X-CSRF-Token. *)
Lemma no_options_leaves_zero_values :
  ~ (opts_Secure (csrf_opts (@parseOptions string string (Some "app") [])) = true /\
     opts_HttpOnly (csrf_opts (@parseOptions string string (Some "app") [])) = true /\
     opts_MaxAge (csrf_opts (@parseOptions string string (Some "app") [])) = 43200%Z /\
     opts_RequestHeader (csrf_opts (@parseOptions string string (Some "app") []))
       = "X-CSRF-Token").
Proof. intros (_ & _ & Hage & _). vm_compute in Hage. discriminate Hage. Qed.

(** C2, as stated, fails: in [MaxAge 1; MaxAge 2; MaxAge 3] the first two
    options set the same field and [MaxAge 2] is the later of the pair, yet
    the configuration returned carries 3. *)
Lemma later_of_pair_overridden_in_turn :
  let opts : list (@Option string string) := [MaxAge 1%Z; MaxAge 2%Z; MaxAge 3%Z] in
  0 < 1 /\
  opts !! 0 = Some (MaxAge 1%Z) /\
  opts !! 1 = Some (MaxAge 2%Z) /\
  writes (MaxAge 1%Z : @Option string string) FMaxAge 1%Z /\
  writes (MaxAge 2%Z : @Option string string) FMaxAge 2%Z /\
  read FMaxAge (csrf_opts (parseOptions (Some "app") opts)) <> 2%Z.
Proof.
  simpl. split; [lia|]. split; [reflexivity|]. split; [reflexivity|].
  split; [intros cs; reflexivity|]. split; [intros cs; reflexivity|].
  vm_compute. discriminate.
Qed.

Lemma later_option_overrides_witness :
  read FMaxAge
    (csrf_opts
       (@parseOptions string string (Some "app")
          [MaxAge 1%Z; Secure false; MaxAge 2%Z; Domain "example.com"])) = 2%Z.
Proof.
  apply (later_option_overrides (Some "app")
           [MaxAge 1%Z; Secure false; MaxAge 2%Z; Domain "example.com"]
           0 2 (MaxAge 1%Z) (MaxAge 2%Z) FMaxAge 1%Z 2%Z).
  - lia.
  - reflexivity.
  - reflexivity.
  - intros cs. reflexivity.
  - intros cs. reflexivity.
  - intros k o Hk Ho.
    destruct k as [|[|[|[|k]]]]; try lia.
    + injection Ho as <-. intros cs. reflexivity.
    + discriminate Ho.
Defined.

Lemma option_frame_witness :
  csrf_h (after (call (CallMaxAge 3600%Z)) (@parseOptions string string (Some "app") []))
    = Some "app" /\
  csrf_st (after (call (CallMaxAge 3600%Z)) (@parseOptions string string (Some "app") []))
    = None /\
  read FSecure
    (csrf_opts
       (after (call (CallMaxAge 3600%Z)) (@parseOptions string string (Some "app") [])))
    = true /\
  after (call (CallSecure false))
    (after (call (CallMaxAge 3600%Z)) (@parseOptions string string (Some "app") []))
  = after (call (CallMaxAge 3600%Z))
      (after (call (CallSecure false)) (@parseOptions string string (Some "app") [])).
Proof.
  apply (option_frame (CallMaxAge 3600%Z) (CallSecure false) FSecure
           (@parseOptions string string (Some "app") [])).
  - discriminate.
  - discriminate.
Defined.

Lemma Unmask_Mask_witness :
  Mask (countingTape 32) (countingTape 40) =
    Some (take 32 (countingTape 40)
            ++ xor_bytes (take 32 (countingTape 40)) (countingTape 32),
          drop 32 (countingTape 40)) /\
  Unmask (take 32 (countingTape 40)
            ++ xor_bytes (take 32 (countingTape 40)) (countingTape 32))
    = Some (countingTape 32).
Proof.
  apply (Unmask_Mask (countingTape 32) (countingTape 40)
           (drop 32 (countingTape 40)) (take 32 (countingTape 40))).
  - reflexivity.
  - reflexivity.
Defined.

(** C6, as stated, fails: a GET request reaches no handler and receives no
    cookie when the Random Source cannot supply the bytes to mint and mask
    the token; the core aborts without a response. *)
Lemma safe_method_needs_random_bytes :
  req_method bareGet ∈ defaultSafeMethods /\
  ~ (exists out rs',
       serve defaultSafeMethods hexCodec bareApp bareGet [] = Some (out, rs')).
Proof.
  split.
  - constructor.
  - intros (out & rs' & Hserve). vm_compute in Hserve. discriminate Hserve.
Qed.

Lemma safe_method_bypass_witness :
  (exists out rs' masked,
     serve defaultSafeMethods hexCodec bareApp bareGet (countingTape 96)
       = Some (out, rs') /\
     out_verdict out = Accepted /\
     out_invoked out = Wrapped (Some "app") /\
     out_response out =
       [ {| cookie_name := ""; cookie_value := encode_hex masked;
            cookie_path := ""; cookie_domain := ""; cookie_max_age := 0%Z;
            cookie_secure := true; cookie_http_only := true |} ] /\
     Unmask masked = Some (out_raw out) /\
     length rs' + 96 = 96) /\
  (exists out rs' masked,
     serve defaultSafeMethods hexCodec namedApp cookieGet (countingTape 64)
       = Some (out, rs') /\
     out_verdict out = Accepted /\
     out_invoked out = Wrapped (Some "app") /\
     out_response out =
       [ {| cookie_name := "csrf"; cookie_value := encode_hex masked;
            cookie_path := ""; cookie_domain := ""; cookie_max_age := 0%Z;
            cookie_secure := true; cookie_http_only := true |} ] /\
     Unmask masked = Some (out_raw out) /\
     length rs' + 64 = 64) /\
  serve defaultSafeMethods hexCodec namedApp cookieGet (countingTape 63) = None.
Proof.
  split; [|split].
  - destruct (safe_method_bypass defaultSafeMethods hexCodec bareApp bareGet
                (countingTape 96)) as (_ & _ & Hserved & _).
    + constructor.
    + apply Hserved. vm_compute. lia.
  - destruct (safe_method_bypass defaultSafeMethods hexCodec namedApp cookieGet
                (countingTape 64)) as (_ & _ & Hserved & _).
    + constructor.
    + apply Hserved. vm_compute. lia.
  - destruct (safe_method_bypass defaultSafeMethods hexCodec namedApp cookieGet
                (countingTape 63)) as (_ & _ & _ & Haborted).
    + constructor.
    + apply Haborted. vm_compute. lia.
Defined.

(** C8, as stated, fails: a list that holds a nil option makes the loop of
    [parseOptions] call a nil function value, which panics, also after an
    option that was applied without error. *)
Lemma nil_option_panics :
  @parseOptions_or_panic string string (Some "app")
    [Some (MaxAge 60%Z); None] = None.
Proof. reflexivity. Qed.

Lemma options_fail_only_on_nil_witness :
  @parseOptions_or_panic string string (Some "app")
    [Some (complaining 60%Z); None; Some (Secure false)] = None /\
  @parseOptions_or_panic string string (Some "app")
    (map Some [complaining 60%Z; Secure false])
  = Some (parseOptions (Some "app") [complaining 60%Z; Secure false]).
Proof.
  destruct (@options_fail_only_on_nil string string)
    as (_ & Hsucceeds & _ & _ & Hpanics).
  split.
  - apply Hpanics. apply elem_of_cons. right. constructor.
  - apply Hsucceeds.
Defined.

Lemma secure_defaults_survive_witness :
  opts_Secure
    (csrf_opts
       (@parseOptions string string (Some "app")
          (map call [CallMaxAge 60%Z; CallPath "/"]))) = true /\
  opts_HttpOnly
    (csrf_opts
       (@parseOptions string string (Some "app")
          (map call [CallMaxAge 60%Z; CallPath "/"]))) = true.
Proof.
  apply (secure_defaults_survive (Some "app") [CallMaxAge 60%Z; CallPath "/"]).
  repeat constructor; discriminate.
Defined.

Lemma parseOptions_permutation_witness :
  @parseOptions string string (Some "app")
    (map call [CallMaxAge 60%Z; CallSecure false; CallPath "/"])
  = parseOptions (Some "app")
      (map call [CallSecure false; CallMaxAge 60%Z; CallPath "/"]).
Proof.
  apply (parseOptions_permutation (Some "app")
           [CallMaxAge 60%Z; CallSecure false; CallPath "/"]
           [CallSecure false; CallMaxAge 60%Z; CallPath "/"]).
  - simpl. repeat (apply NoDup_cons_2 || apply NoDup_nil_2).
    + intros Hin. apply elem_of_cons in Hin as [?|Hin]; [discriminate|].
      apply elem_of_cons in Hin as [?|Hin]; [discriminate|].
      inversion Hin.
    + intros Hin. apply elem_of_cons in Hin as [?|Hin]; [discriminate|].
      inversion Hin.
    + intros Hin. inversion Hin.
  - apply perm_swap.
Defined.

Lemma overridden_option_is_dead_witness :
  @parseOptions string string (Some "app")
    (map call ([CallSecure false] ++ CallMaxAge 60%Z
                 :: [CallPath "/"] ++ CallMaxAge 3600%Z :: []))
  = parseOptions (Some "app")
      (map call ([CallSecure false] ++ [CallPath "/"]
                   ++ CallMaxAge 3600%Z :: [])).
Proof.
  apply (overridden_option_is_dead (Some "app") [CallSecure false]
           [CallPath "/"] [] (CallMaxAge 60%Z) (CallMaxAge 3600%Z)).
  reflexivity.
Defined.

Lemma rewriting_same_value_changes_nothing_witness :
  after (call (CallSecure true)) (@parseOptions string string (Some "app") [])
  = parseOptions (Some "app") [].
Proof.
  apply (rewriting_same_value_changes_nothing (CallSecure true)
           (@parseOptions string string (Some "app") [])).
  reflexivity.
Defined.
